(** * Pype9: the NEST/MUSIC event output proxy and the mock archiving node

    A shallow embedding of
    - [src/external/nest/nest-2.0.0-rc4/models/music_event_out_proxy.h]
      (class [nest::music_event_out_proxy]), and
    - [src/test/compare/nest/src/archiving_node.h]
      (classes [Network], [Node], [Archiving_Node]),
    followed by the properties of the export channel proved about them. *)

From Stdlib Require Import ZArith Lia PrimFloat.
From stdpp Require Import base option list strings.

Local Open Scope Z_scope.

(** ** C++ integer types *)

Module Cxx.

(** Two's-complement value of [z] in a signed integer of [bits] bits. *)
Definition wrap_signed (bits z : Z) : Z :=
  (z + 2 ^ (bits - 1)) `mod` 2 ^ bits - 2 ^ (bits - 1).

Definition in_range (bits z : Z) : Prop :=
  - 2 ^ (bits - 1) ≤ z < 2 ^ (bits - 1).

(** [int] on the ABIs NEST is built for. *)
Definition int_bits : Z := 32.

(** [long] on LP64. [nest.h], which the header includes and which is not
    among the sources at hand, declares [typedef long long_t;] and
    [typedef long_t port;]. *)
Definition long_bits : Z := 64.

Definition is_int (z : Z) : Prop := in_range int_bits z.
Definition is_long (z : Z) : Prop := in_range long_bits z.

(** [static_cast<int>(x)] for an integer [x] of a wider type. *)
Definition static_cast_int (z : Z) : Z := wrap_signed int_bits z.

End Cxx.

(** ** Member functions: state passing with C++ exceptions *)

Module Method.

(** [MUSICPortAlreadyPublished] is what [connect_sender] throws; it is
    built from the node's name and the port name. [UnconfiguredPort] is the
    error of the design for an event delivered or a flush attempted before
    publish. *)
Inductive exception : Type :=
| MUSICPortAlreadyPublished (node_name port_name : string)
| UnconfiguredPort.

Inductive outcome (A : Type) : Type :=
| Returns (a : A)
| Throws (e : exception).
Arguments Returns {A} a.
Arguments Throws {A} e.

(** A member function called on an object of type [S]: it returns or
    throws, and leaves the object in the state reached so far. *)
Definition method (S A : Type) : Type := S → outcome A * S.

Definition ret {S A} (a : A) : method S A := λ s, (Returns a, s).
Definition throw {S A} (e : exception) : method S A := λ s, (Throws e, s).
Definition bind {S A B} (m : method S A) (k : A → method S B) : method S B :=
  λ s, match m s with
       | (Returns a, s') => k a s'
       | (Throws e, s') => (Throws e, s')
       end.
Definition this {S} : method S S := λ s, (Returns s, s).
Definition modify {S} (f : S → S) : method S () := λ s, (Returns (), f s).

#[global] Instance method_ret {S} : MRet (method S) := @ret S.
#[global] Instance method_bind {S} : MBind (method S) := λ A B k m, bind m k.

End Method.
Export Method.

(** ** [music_event_out_proxy.h] *)

Module Nest.

(** [port] is [long_t]; its values are the integers satisfying
    [Cxx.is_long]. *)
Abbreviation port := Z (only parsing).

(** [MUSIC::GlobalIndex] wraps an [int]. *)
Abbreviation GlobalIndex := Z (only parsing).

(** Modelled from the spec: [event.h] is not among the sources. An event
    carries what the event-delivery interface is given: the local channel
    position of its sender, a timestamp and a payload placeholder. *)
Record SpikeEvent : Type := {
  rport : nat;
  stamp : Z;
  payload : Z
}.

Record Parameters_ : Type := {
  port_name_ : string
}.

Record State_ : Type := {
  published_ : bool;
  port_width_ : Z
}.

(** [MP_] points into the MUSIC library: null or the address of the port
    object. [music_perm_ind_] is null or owns the permutation index, whose
    contents are the table it was built from. *)
Record Variables_ : Type := {
  MP_ : option N;
  index_map_ : list GlobalIndex;
  music_perm_ind_ : option (list GlobalIndex)
}.

(** The object: [get_name] is what [Node::get_name()] of the base class
    returns for it. *)
Record music_event_out_proxy : Type := {
  get_name : string;
  P_ : Parameters_;
  S_ : State_;
  V_ : Variables_
}.

(** The object with [xs] appended to [V_.index_map_]. *)
Definition index_map_append (xs : list GlobalIndex)
    (n : music_event_out_proxy) : music_event_out_proxy :=
  {| get_name := get_name n;
     P_ := P_ n;
     S_ := S_ n;
     V_ := {| MP_ := MP_ (V_ n);
              index_map_ := index_map_ (V_ n) ++ xs;
              music_perm_ind_ := music_perm_ind_ (V_ n) |} |}.

(** [V_.index_map_.push_back(x)] *)
Definition index_map_push_back (x : GlobalIndex)
    (n : music_event_out_proxy) : music_event_out_proxy :=
  index_map_append [x] n.

(** [port connect_sender(SpikeEvent&, port receptor_type)] *)
Definition connect_sender (_ : SpikeEvent) (receptor_type : port)
    : method music_event_out_proxy port :=
  n ← this;
  (if negb (published_ (S_ n))
   then modify (index_map_push_back (Cxx.static_cast_int receptor_type))
   else throw (MUSICPortAlreadyPublished (get_name n) (port_name_ (P_ n))));;
  mret receptor_type.

(** [void update(Time const &, const long_t, const long_t) {}]; the time is
    taken as its number of steps. *)
Definition update (origin : Z) (from to : Z)
    : method music_event_out_proxy () :=
  mret ().

(** Successive [connect_sender] calls; the result collects what each call
    returned. *)
Fixpoint connect_senders (calls : list (SpikeEvent * port))
    : method music_event_out_proxy (list port) :=
  match calls with
  | [] => mret []
  | (e, receptor_type) :: calls =>
      r ← connect_sender e receptor_type;
      rs ← connect_senders calls;
      mret (r :: rs)
  end.

End Nest.
Export Nest.

(** ** The export channel around the proxy

    Only the header of the proxy is among the sources: [calibrate] (which
    publishes), [handle] (which delivers an event), the constructors and
    [set_status] are declared there and defined elsewhere, and the event
    buffer and the redistribution live behind [MP_]. They are modelled here
    from the design document of the channel. *)

Module Channel.


(** Modelled from the spec: the port owns its registry (the proxy with its
    index map) and its event buffer, the events pushed since the last drain
    in push order, keyed by local channel position. *)
Record Port : Type := {
  proxy : music_event_out_proxy;
  buffer : list SpikeEvent
}.

Definition published (p : Port) : bool := published_ (S_ (proxy p)).
Definition width (p : Port) : Z := port_width_ (S_ (proxy p)).
Definition index_map (p : Port) : list GlobalIndex := index_map_ (V_ (proxy p)).

(** A member function of the proxy called on the port's proxy. *)
Definition on_proxy {A} (m : method music_event_out_proxy A) : method Port A :=
  λ p, let '(o, n) := m (proxy p) in (o, {| proxy := n; buffer := buffer p |}).

(** Modelled from the spec: the constructors and [set_status] are not among
    the sources. A port in state Configuring has its name and width set,
    nothing registered, nothing buffered, and is not published. *)
Definition configured (node_name port_name : string) (port_width : Z) : Port :=
  {| proxy := {| get_name := node_name;
                 P_ := {| port_name_ := port_name |};
                 S_ := {| published_ := false; port_width_ := port_width |};
                 V_ := {| MP_ := None; index_map_ := [];
                          music_perm_ind_ := None |} |};
     buffer := [] |}.

(** [register] of the design is [connect_sender] of the proxy. *)
Definition register (e : SpikeEvent) (channel_number : port) : method Port port :=
  on_proxy (connect_sender e channel_number).

(** The state change of a successful publish: the flag is set and the
    permutation table is built from the index map as it stands. *)
Definition freeze (p : Port) : Port :=
  {| proxy := {| get_name := get_name (proxy p);
                 P_ := P_ (proxy p);
                 S_ := {| published_ := true; port_width_ := width p |};
                 V_ := {| MP_ := MP_ (V_ (proxy p));
                          index_map_ := index_map p;
                          music_perm_ind_ := Some (index_map p) |} |};
     buffer := buffer p |}.

(** Modelled from the spec: [calibrate], which publishes the port, is not
    among the sources. [publish] moves the published flag from false to
    true; called on a published port it fails with PortAlreadyPublished. *)
Definition publish : method Port () :=
  p ← this;
  if published p
  then throw (MUSICPortAlreadyPublished (get_name (proxy p))
                                        (port_name_ (P_ (proxy p))))
  else modify freeze.

(** Modelled from the spec: [handle(SpikeEvent&)] is declared in the header
    and defined elsewhere. [push] is valid only on a published port, where
    it appends the event to the buffer; before publish it fails with
    UnconfiguredPort. *)
Definition push (e : SpikeEvent) : method Port () :=
  p ← this;
  if published p
  then modify (λ p, {| proxy := proxy p; buffer := buffer p ++ [e] |})
  else throw UnconfiguredPort.

(** Modelled from the spec: nothing of the buffer is among the sources.
    [drain] removes and returns all buffered events and leaves the buffer
    empty. *)
Definition drain : method Port (list SpikeEvent) :=
  p ← this;
  modify (λ p, {| proxy := proxy p; buffer := [] |});;
  mret (buffer p).







(** The calls a port receives from its collaborators. *)
Inductive call : Type :=
| Register (e : SpikeEvent) (channel_number : port)
| Publish
| Push (e : SpikeEvent)
| Drain
| Update (origin from to : Z).

Definition exec (c : call) : method Port () :=
  match c with
  | Register e channel_number => register e channel_number;; mret ()
  | Publish => publish
  | Push e => push e
  | Drain => drain;; mret ()
  | Update origin from to => on_proxy (update origin from to)
  end.

(** The port after a call, whether the call returned or threw. *)
Definition after (c : call) (p : Port) : Port := (exec c p).2.

Definition run (cs : list call) (p : Port) : Port := foldl (λ p c, after c p) p cs.

(** The [register] calls for a list of (event, channel number) pairs. *)
Definition registrations (regs : list (SpikeEvent * port)) : list call :=
  (λ r, Register r.1 r.2) <$> regs.

(** The states a port can be in: those reached from Configuring. *)
Definition reachable (p : Port) : Prop :=
  ∃ node_name port_name port_width cs,
    p = run cs (configured node_name port_name port_width).




End Channel.
Export Channel.

(** ** [archiving_node.h]: the mock node of the comparison tests *)

Module ArchivingNode.

(** [Network]: its constructor [Network(long seed=1234567890)] is declared
    only; the object is represented by the seed it was built with. *)
Record Network : Type := {
  seed : Z
}.

(** The free store: the [Network] objects allocated by [new], by address. *)
Definition store : Type := list Network.

(** [new Network()] *)
Definition new_Network : method store nat :=
  h ← this;
  modify (λ h, h ++ [{| seed := 1234567890 |}]);;
  mret (length h).

Record Node : Type := {
  net_ : nat
}.

(** [Node() : net_(new Network()) {}] *)
Definition Node_default : method store Node :=
  a ← new_Network;
  mret {| net_ := a |}.

(** [Node(const Node& node) : net_(node.net_) {}] *)
Definition Node_copy (node : Node) : Node :=
  {| net_ := net_ node |}.

(** [double_t] is [double]. *)
Record Archiving_Node : Type := {
  base : Node;
  last_spike_ : float
}.

(** [Archiving_Node() : last_spike_(-1.0) {}] *)
Definition Archiving_Node_default : method store Archiving_Node :=
  b ← Node_default;
  mret {| base := b; last_spike_ := (-1)%float |}.

(** [Archiving_Node(const Archiving_Node& node)
      : Node(node), last_spike_(node.last_spike_) {}] *)
Definition Archiving_Node_copy (node : Archiving_Node) : Archiving_Node :=
  {| base := Node_copy (base node); last_spike_ := last_spike_ node |}.

(** [double_t get_spiketime_ms() const { return last_spike_; }] *)
Definition get_spiketime_ms (node : Archiving_Node) : float :=
  last_spike_ node.

(** [void set_spiketime_ms(double_t st) { last_spike_ = st; }] *)
Definition set_spiketime_ms (st : float) : method Archiving_Node () :=
  modify (λ node, {| base := base node; last_spike_ := st |}).

(** [void clear_history() {}] *)
Definition clear_history : method Archiving_Node () :=
  mret ().

End ArchivingNode.

(** ** Concrete ports and events used in examples *)

Module Examples.

Definition spike (position : nat) (t : Z) : SpikeEvent :=
  {| rport := position; stamp := t; payload := 1 |}.

Definition fresh_proxy : music_event_out_proxy :=
  proxy (configured "meop" "spikes_out" 4).

(** A published proxy with two channels assigned. *)
Definition published_proxy : music_event_out_proxy :=
  proxy (run [Register (spike 0 0) 2; Register (spike 0 0) 0; Publish]
             (configured "meop" "spikes_out" 4)).

(** A channel number that a [long] holds and an [int] does not. *)
Definition wide_channel : port := 4294967298.

(** The two processes of the concrete scenario at tick 10: port
    "spikes_out" of width 4; A registers channels 2, 0 and pushes on its
    first sender, B registers 1, 3 and pushes on its second. *)
Definition process_A : Port :=
  run [Register (spike 0 0) 2; Register (spike 1 0) 0; Publish; Push (spike 0 10)]
      (configured "meop" "spikes_out" 4).


(** A port of width 1 with two senders connected. *)
Definition narrow_port : Port :=
  run [Register (spike 0 0) 0; Register (spike 1 0) 0]
      (configured "meop" "spikes_out" 1).

End Examples.

(** ** The proxy under the calls its header defines *)

Module ProxyCalls.

(** The two member functions with a body in the header, as calls. *)
Inductive member_call : Type :=
| ConnectSender (e : SpikeEvent) (receptor_type : port)
| UpdateStep (origin from to : Z).

(** What a call returns: [connect_sender] a port, [update] nothing. *)
Definition invoke (c : member_call)
    : method music_event_out_proxy (option port) :=
  match c with
  | ConnectSender e receptor_type =>
      r ← connect_sender e receptor_type; mret (Some r)
  | UpdateStep origin from to =>
      update origin from to;; mret None
  end.

(** A caller that makes the calls one after the other and catches what
    they throw: the outcomes of the calls, and the object at the end. *)
Fixpoint trace (cs : list member_call) (n : music_event_out_proxy)
    : list (outcome (option port)) * music_event_out_proxy :=
  match cs with
  | [] => ([], n)
  | c :: cs =>
      let '(o, n') := invoke c n in
      let '(os, n'') := trace cs n' in
      (o :: os, n'')
  end.

(** The receptor types of the [connect_sender] calls of a sequence. *)
Definition receptor_types (cs : list member_call) : list port :=
  omap (λ c, match c with
             | ConnectSender _ receptor_type => Some receptor_type
             | UpdateStep _ _ _ => None
             end) cs.

(** What each call of a sequence returns when none throws. *)
Definition returned (c : member_call) : outcome (option port) :=
  match c with
  | ConnectSender _ receptor_type => Returns (Some receptor_type)
  | UpdateStep _ _ _ => Returns None
  end.

(** What each call of a sequence does on the published object [n]. *)
Definition rejected (n : music_event_out_proxy) (c : member_call)
    : outcome (option port) :=
  match c with
  | ConnectSender _ _ =>
      Throws (MUSICPortAlreadyPublished (get_name n) (port_name_ (P_ n)))
  | UpdateStep _ _ _ => Returns None
  end.

End ProxyCalls.

(** ** The mock node's lifetime and calls *)

Module NodeLifetime.
Import ArchivingNode.

(** [Network* network() { return net_; }] *)
Definition network (node : Node) : nat := net_ node.

(** [void set_spiketime(Time const& t_sp) {}] of [Node]; the time is taken
    as its number of steps. *)
Definition set_spiketime (t_sp : Z) : method Node () :=
  mret ().

(** A member function of [Node] called on an [Archiving_Node]. *)
Definition on_base {A} (m : method Node A) : method Archiving_Node A :=
  λ node, let '(o, b) := m (base node) in
          (o, {| base := b; last_spike_ := last_spike_ node |}).

(** The calls that may touch the spike time of an [Archiving_Node]. *)
Inductive node_call : Type :=
| SetSpiketimeMs (st : float)
| ClearHistory
| SetSpiketime (t_sp : Z).

Definition node_invoke (c : node_call) : method Archiving_Node () :=
  match c with
  | SetSpiketimeMs st => set_spiketime_ms st
  | ClearHistory => clear_history
  | SetSpiketime t_sp => on_base (set_spiketime t_sp)
  end.

Definition node_run (cs : list node_call) (node : Archiving_Node)
    : Archiving_Node :=
  foldl (λ node c, (node_invoke c node).2) node cs.

(** The argument of the last [set_spiketime_ms] call of a sequence. *)
Definition last_set (cs : list node_call) : option float :=
  last (omap (λ c, match c with
                   | SetSpiketimeMs st => Some st
                   | _ => None
                   end) cs).

(** The free store with the addresses [delete] has been applied to;
    addresses are not handed out again. *)
Record heap : Type := {
  objects : store;
  deleted : list nat
}.

(** An address is live when [new] returned it and [delete] has not been
    applied to it. *)
Definition live (h : heap) (a : nat) : bool :=
  bool_decide (a < length (objects h))%nat && bool_decide (a ∉ deleted h).

(** Every deleted address was allocated. *)
Definition heap_wf (h : heap) : Prop :=
  Forall (λ a, (a < length (objects h))%nat) (deleted h).

(** A constructor, which allocates in the store, run on the heap. *)
Definition on_objects {A} (m : method store A) : method heap A :=
  λ h, let '(o, st) := m (objects h) in
       (o, {| objects := st; deleted := deleted h |}).

(** [delete p] for a non-null [p]: defined only on a live address;
    [None] stands for the undefined behaviour of deleting anything else. *)
Definition delete (a : nat) (h : heap) : option heap :=
  if live h a
  then Some {| objects := objects h; deleted := a :: deleted h |}
  else None.

(** [virtual ~Node() { delete net_; }] *)
Definition Node_destroy (node : Node) (h : heap) : option heap :=
  delete (net_ node) h.

(** [virtual ~Archiving_Node() {}], which runs [~Node()] next. *)
Definition Archiving_Node_destroy (node : Archiving_Node) (h : heap)
    : option heap :=
  Node_destroy (base node) h.

End NodeLifetime.

(** * Properties *)

(** ** Conversions to [int] *)

Lemma wrap_signed_id bits z :
  0 < bits → Cxx.in_range bits z → Cxx.wrap_signed bits z = z.
Proof.
  unfold Cxx.in_range, Cxx.wrap_signed. intros Hb Hz.
  assert (H2 : 2 ^ bits = 2 * 2 ^ (bits - 1)).
  { rewrite <- Z.pow_succ_r by lia. f_equal. lia. }
  rewrite Z.mod_small; lia.
Qed.

Lemma static_cast_int_id z : Cxx.is_int z → Cxx.static_cast_int z = z.
Proof. apply wrap_signed_id. reflexivity. Qed.

Lemma static_cast_int_fmap_id (zs : list Z) :
  Forall Cxx.is_int zs → Cxx.static_cast_int <$> zs = zs.
Proof.
  induction 1 as [|z zs Hz _ IH]; [done|].
  rewrite fmap_cons. by rewrite static_cast_int_id, IH.
Qed.

(** ** [connect_sender] *)

Lemma index_map_append_nil n : index_map_append [] n = n.
Proof.
  destruct n as [name P S [mp im perm]]. unfold index_map_append; simpl.
  by rewrite app_nil_r.
Qed.

Lemma index_map_append_append xs ys n :
  index_map_append ys (index_map_append xs n) = index_map_append (xs ++ ys) n.
Proof. unfold index_map_append; simpl. by rewrite app_assoc. Qed.

Lemma connect_sender_unpublished e receptor_type n :
  published_ (S_ n) = false →
  connect_sender e receptor_type n
  = (Returns receptor_type,
     index_map_push_back (Cxx.static_cast_int receptor_type) n).
Proof.
  intros Hp. unfold connect_sender, mbind, method_bind, bind, this; simpl.
  by rewrite Hp.
Qed.

Lemma connect_sender_published e receptor_type n :
  published_ (S_ n) = true →
  connect_sender e receptor_type n
  = (Throws (MUSICPortAlreadyPublished (get_name n) (port_name_ (P_ n))), n).
Proof.
  intros Hp. unfold connect_sender, mbind, method_bind, bind, this; simpl.
  by rewrite Hp.
Qed.

Lemma connect_senders_unpublished calls n :
  published_ (S_ n) = false →
  connect_senders calls n
  = (Returns calls.*2,
     index_map_append (Cxx.static_cast_int <$> calls.*2) n).
Proof.
  revert n. induction calls as [|[e c] calls IH]; intros n Hp.
  - simpl. by rewrite index_map_append_nil.
  - cbn [connect_senders]. unfold mbind, method_bind, bind.
    rewrite (connect_sender_unpublished _ _ _ Hp).
    rewrite IH by done. unfold index_map_push_back.
    by rewrite index_map_append_append.
Qed.

(** C1. On a proxy whose published flag is set, [connect_sender] throws
    [MUSICPortAlreadyPublished] (naming the node and the port) and leaves
    the object as it was: in particular the index map keeps its contents
    and its length. *)
Theorem connect_sender_after_publish (e : SpikeEvent) (receptor_type : port)
    (n : music_event_out_proxy) :
  published_ (S_ n) = true →
  (connect_sender e receptor_type n).1
    = Throws (MUSICPortAlreadyPublished (get_name n) (port_name_ (P_ n)))
  ∧ (connect_sender e receptor_type n).2 = n
  ∧ index_map_ (V_ (connect_sender e receptor_type n).2) = index_map_ (V_ n)
  ∧ length (index_map_ (V_ (connect_sender e receptor_type n).2))
    = length (index_map_ (V_ n)).
Proof.
  intros Hp. rewrite (connect_sender_published _ _ _ Hp). done.
Qed.

(** The failure scenario: channel 5 registered on a published port. *)
Lemma connect_sender_after_publish_witness :
  (connect_sender (Examples.spike 0 0) 5 Examples.published_proxy).1
    = Throws (MUSICPortAlreadyPublished "meop" "spikes_out")
  ∧ length (index_map_ (V_ (connect_sender (Examples.spike 0 0) 5
                                           Examples.published_proxy).2))
    = 2%nat.
Proof.
  destruct (connect_sender_after_publish (Examples.spike 0 0) 5
              Examples.published_proxy) as (H1 & _ & _ & H4).
  - reflexivity.
  - split; [exact H1 | exact H4].
Defined.

(** C2, as stated, fails: a channel number that does not fit an [int] is
    not what the index map receives. *)
Lemma connect_senders_exact_counterexample :
  ¬ (∀ (calls : list (SpikeEvent * port)) (n : music_event_out_proxy),
       Forall Cxx.is_long calls.*2 →
       published_ (S_ n) = false →
       (connect_senders calls n).1 = Returns calls.*2
       ∧ index_map_ (V_ (connect_senders calls n).2)
         = index_map_ (V_ n) ++ calls.*2).
Proof.
  intros H.
  destruct (H [(Examples.spike 0 0, Examples.wide_channel)]
              Examples.fresh_proxy) as [_ Hmap].
  - repeat constructor; unfold Cxx.is_long, Cxx.in_range; vm_compute;
      intros; discriminate.
  - reflexivity.
  - vm_compute in Hmap. discriminate Hmap.
Qed.

(** C2, amended. Every sequence of [connect_sender] calls on an unpublished
    proxy, duplicates included, succeeds call by call, each call returning
    its channel number; the index map is extended, in call order, by the
    channel numbers converted to [int], and nothing else of the object
    changes. Where the channel numbers fit an [int], these are the supplied
    numbers themselves. *)
Theorem connect_senders_before_publish (calls : list (SpikeEvent * port))
    (n : music_event_out_proxy) :
  published_ (S_ n) = false →
  connect_senders calls n
    = (Returns calls.*2,
       index_map_append (Cxx.static_cast_int <$> calls.*2) n)
  ∧ index_map_ (V_ (connect_senders calls n).2)
    = index_map_ (V_ n) ++ (Cxx.static_cast_int <$> calls.*2)
  ∧ (Forall Cxx.is_int calls.*2 →
     index_map_ (V_ (connect_senders calls n).2)
     = index_map_ (V_ n) ++ calls.*2).
Proof.
  intros Hp. rewrite (connect_senders_unpublished _ _ Hp).
  split; [done|]. split; [done|].
  intros Hint. simpl. by rewrite static_cast_int_fmap_id.
Qed.

(** Channels 2, 0 and again 2 on a fresh port. *)
Lemma connect_senders_before_publish_witness :
  index_map_ (V_ (connect_senders
                    [(Examples.spike 0 0, 2); (Examples.spike 0 0, 0);
                     (Examples.spike 0 0, 2)]
                    Examples.fresh_proxy).2)
  = [2; 0; 2].
Proof.
  destruct (connect_senders_before_publish
              [(Examples.spike 0 0, 2); (Examples.spike 0 0, 0);
               (Examples.spike 0 0, 2)]
              Examples.fresh_proxy) as (_ & _ & H).
  - reflexivity.
  - apply H. repeat constructor; unfold Cxx.is_int, Cxx.in_range; vm_compute;
      intros; discriminate.
Defined.

(** C6. On an unpublished proxy, [connect_sender] returns the channel
    number it was given, whatever that number is. *)
Theorem connect_sender_returns_channel (e : SpikeEvent) (receptor_type : port)
    (n : music_event_out_proxy) :
  published_ (S_ n) = false →
  (connect_sender e receptor_type n).1 = Returns receptor_type.
Proof.
  intros Hp. by rewrite (connect_sender_unpublished _ _ _ Hp).
Qed.

Lemma connect_sender_returns_channel_witness :
  (connect_sender (Examples.spike 0 0) Examples.wide_channel
                  Examples.fresh_proxy).1
  = Returns Examples.wide_channel.
Proof.
  apply connect_sender_returns_channel. reflexivity.
Defined.

(** C9. [update] does nothing: it returns, and the parameters (port name),
    the state (published flag, port width) and the variables (port pointer,
    index map, permutation index) are what they were, for every object and
    every argument triple. *)
Theorem update_is_noop (origin from to : Z) (n : music_event_out_proxy) :
  update origin from to n = (Returns (), n)
  ∧ port_name_ (P_ (update origin from to n).2) = port_name_ (P_ n)
  ∧ published_ (S_ (update origin from to n).2) = published_ (S_ n)
  ∧ port_width_ (S_ (update origin from to n).2) = port_width_ (S_ n)
  ∧ MP_ (V_ (update origin from to n).2) = MP_ (V_ n)
  ∧ index_map_ (V_ (update origin from to n).2) = index_map_ (V_ n)
  ∧ music_perm_ind_ (V_ (update origin from to n).2) = music_perm_ind_ (V_ n).
Proof. repeat split. Qed.

(** ** [Archiving_Node] *)

(** C10. [get_spiketime_ms] after [set_spiketime_ms st] returns [st]; a
    default-constructed node returns -1.0; a copy-constructed node returns
    what the node it was copied from returns. *)
Theorem spiketime_set_get :
  (∀ (node : ArchivingNode.Archiving_Node) (st : float),
     (ArchivingNode.set_spiketime_ms st node).1 = Returns ()
     ∧ ArchivingNode.get_spiketime_ms
         (ArchivingNode.set_spiketime_ms st node).2 = st)
  ∧ (∀ h : ArchivingNode.store,
       ∃ node h',
         ArchivingNode.Archiving_Node_default h = (Returns node, h')
         ∧ ArchivingNode.get_spiketime_ms node = (-1)%float)
  ∧ (∀ node : ArchivingNode.Archiving_Node,
       ArchivingNode.get_spiketime_ms (ArchivingNode.Archiving_Node_copy node)
       = ArchivingNode.get_spiketime_ms node).
Proof.
  split; [|split].
  - intros node st. split; reflexivity.
  - intros h. eexists _, _. split; reflexivity.
  - intros node. reflexivity.
Qed.

(** ** The port: single calls *)

Ltac run_method :=
  unfold mbind, method_bind, bind, mret, method_ret, ret, this, modify, throw;
  simpl.

Lemma register_unpublished e c p :
  published p = false →
  register e c p
  = (Returns c,
     {| proxy := index_map_push_back (Cxx.static_cast_int c) (proxy p);
        buffer := buffer p |}).
Proof.
  intros Hp. unfold register, on_proxy.
  by rewrite (connect_sender_unpublished _ _ _ Hp).
Qed.

Lemma register_published e c p :
  published p = true →
  register e c p
  = (Throws (MUSICPortAlreadyPublished (get_name (proxy p))
                                       (port_name_ (P_ (proxy p)))), p).
Proof.
  intros Hp. unfold register, on_proxy.
  rewrite (connect_sender_published _ _ _ Hp). by destruct p.
Qed.

Lemma publish_unpublished p :
  published p = false → publish p = (Returns (), freeze p).
Proof. intros Hp. unfold publish. run_method. by rewrite Hp. Qed.

Lemma publish_published p :
  published p = true →
  publish p
  = (Throws (MUSICPortAlreadyPublished (get_name (proxy p))
                                       (port_name_ (P_ (proxy p)))), p).
Proof. intros Hp. unfold publish. run_method. by rewrite Hp. Qed.

Lemma push_unpublished e p :
  published p = false → push e p = (Throws UnconfiguredPort, p).
Proof. intros Hp. unfold push. run_method. by rewrite Hp. Qed.

Lemma push_published e p :
  published p = true →
  push e p = (Returns (), {| proxy := proxy p; buffer := buffer p ++ [e] |}).
Proof. intros Hp. unfold push. run_method. by rewrite Hp. Qed.

Lemma drain_eq p :
  drain p = (Returns (buffer p), {| proxy := proxy p; buffer := [] |}).
Proof. reflexivity. Qed.

Lemma update_on_port origin from to p :
  on_proxy (update origin from to) p = (Returns (), p).
Proof. by destruct p. Qed.

(** What a call leaves of the proxy once the port is published: all of it. *)
Lemma after_published_proxy c p :
  published p = true → proxy (after c p) = proxy p.
Proof.
  intros Hp. unfold after. destruct c as [e ch| |e| |origin from to]; cbn [exec].
  - run_method. by rewrite (register_published _ _ _ Hp).
  - by rewrite (publish_published _ Hp).
  - by rewrite (push_published _ _ Hp).
  - reflexivity.
  - by rewrite update_on_port.
Qed.

Lemma run_published_proxy cs p :
  published p = true → proxy (run cs p) = proxy p.
Proof.
  revert p. induction cs as [|c cs IH]; intros p Hp; [done|].
  change (run (c :: cs) p) with (run cs (after c p)).
  rewrite IH.
  - by apply after_published_proxy.
  - unfold published. by rewrite after_published_proxy.
Qed.

(** ** The port: the permutation table of a reachable state *)




(** ** The port: pushes and drains *)

Lemma run_app cs1 cs2 p : run (cs1 ++ cs2) p = run cs2 (run cs1 p).
Proof. unfold run. apply foldl_app. Qed.

Lemma run_pushes es p :
  published p = true →
  run (Push <$> es) p = {| proxy := proxy p; buffer := buffer p ++ es |}.
Proof.
  revert p. induction es as [|e es IH]; intros p Hp.
  - simpl. rewrite app_nil_r. by destruct p.
  - rewrite fmap_cons.
    change (run (Push e :: (Push <$> es)) p)
      with (run (Push <$> es) (after (Push e) p)).
    unfold after. simpl. rewrite (push_published _ _ Hp). simpl.
    rewrite IH by done. simpl. by rewrite <- app_assoc.
Qed.

Lemma run_registrations regs p :
  published p = false →
  run (registrations regs) p
  = {| proxy := index_map_append (Cxx.static_cast_int <$> regs.*2) (proxy p);
       buffer := buffer p |}.
Proof.
  revert p. induction regs as [|[e c] regs IH]; intros p Hp.
  - simpl. rewrite index_map_append_nil. by destruct p.
  - change (run (registrations ((e, c) :: regs)) p)
      with (run (registrations regs) (after (Register e c) p)).
    unfold after. cbn [exec]. run_method.
    rewrite (register_unpublished _ _ _ Hp). simpl.
    rewrite IH by done. simpl. unfold index_map_push_back.
    by rewrite index_map_append_append.
Qed.

(** ** The port: the collective flush *)


(** ** The port: publish-once *)

(** C3. On a port that is not published, however many registrations it has
    taken, [publish] returns and sets the published flag; a second
    [publish] throws PortAlreadyPublished and changes nothing; whatever
    calls follow, the flag stays set and [publish] keeps failing. *)
Theorem publish_once (p0 : Port) (regs : list (SpikeEvent * port))
    (cs : list call) :
  published p0 = false →
  published (run (registrations regs) p0) = false
  ∧ (publish (run (registrations regs) p0)).1 = Returns ()
  ∧ published (publish (run (registrations regs) p0)).2 = true
  ∧ publish (publish (run (registrations regs) p0)).2
    = (Throws (MUSICPortAlreadyPublished (get_name (proxy p0))
                                         (port_name_ (P_ (proxy p0)))),
       (publish (run (registrations regs) p0)).2)
  ∧ published (run cs (publish (run (registrations regs) p0)).2) = true
  ∧ (publish (run cs (publish (run (registrations regs) p0)).2)).1
    = Throws (MUSICPortAlreadyPublished (get_name (proxy p0))
                                        (port_name_ (P_ (proxy p0)))).
Proof.
  intros Hp0.
  assert (Hp : published (run (registrations regs) p0) = false).
  { by rewrite (run_registrations _ _ Hp0). }
  rewrite (publish_unpublished _ Hp). simpl.
  set (p := run (registrations regs) p0) in *.
  assert (Hf : published (freeze p) = true) by reflexivity.
  assert (Hname : get_name (proxy (freeze p)) = get_name (proxy p0)
                  ∧ port_name_ (P_ (proxy (freeze p)))
                    = port_name_ (P_ (proxy p0))).
  { subst p. by rewrite (run_registrations _ _ Hp0). }
  destruct Hname as [Hn Hpn].
  assert (Hrun : proxy (run cs (freeze p)) = proxy (freeze p))
    by (by apply run_published_proxy).
  assert (Hpub : published (run cs (freeze p)) = true).
  { unfold published. by rewrite Hrun. }
  repeat split; try done.
  - rewrite (publish_published _ Hf). by rewrite Hn, Hpn.
  - rewrite (publish_published _ Hpub). simpl. by rewrite Hrun, Hn, Hpn.
Qed.

Lemma publish_once_witness :
  (publish (publish (run (registrations [(Examples.spike 0 0, 2);
                                         (Examples.spike 1 0, 0)])
                         (configured "meop" "spikes_out" 4))).2).1
  = Throws (MUSICPortAlreadyPublished "meop" "spikes_out").
Proof.
  destruct (publish_once (configured "meop" "spikes_out" 4)
              [(Examples.spike 0 0, 2); (Examples.spike 1 0, 0)] [])
    as (_ & _ & _ & H & _).
  - reflexivity.
  - by rewrite H.
Defined.

(** ** The port: width and index map *)

(** C5, as stated, fails: nothing compares the number of assignments with
    the width, so a port of width 1 takes two connections. *)
Lemma width_bounds_index_map_counterexample :
  ¬ (∀ p : Port, reachable p → Z.of_nat (length (index_map p)) ≤ width p).
Proof.
  intros H. specialize (H Examples.narrow_port).
  assert (Hr : reachable Examples.narrow_port).
  { by exists "meop", "spikes_out", 1,
      [Register (Examples.spike 0 0) 0; Register (Examples.spike 1 0) 0]. }
  specialize (H Hr). vm_compute in H. by apply H.
Qed.

(** C5, amended. Once a port is published its index map never changes,
    whatever calls it receives. Before publish the width plays no part in
    registration: each [register] call adds one channel assignment and
    leaves the width as it was. *)
Theorem index_map_frozen_once_published (p q : Port) (cs : list call)
    (e : SpikeEvent) (channel_number : port) :
  published p = true →
  published q = false →
  index_map (run cs p) = index_map p
  ∧ length (index_map (after (Register e channel_number) q))
    = S (length (index_map q))
  ∧ width (after (Register e channel_number) q) = width q.
Proof.
  intros Hp Hq. split.
  - unfold index_map. by rewrite (run_published_proxy _ _ Hp).
  - unfold after. cbn [exec]. run_method.
    rewrite (register_unpublished _ _ _ Hq). simpl.
    split; [|done]. unfold index_map. simpl. rewrite length_app. simpl. lia.
Qed.

Lemma index_map_frozen_once_published_witness :
  index_map (run [Register (Examples.spike 0 0) 5; Publish; Drain]
                 Examples.process_A) = [2; 0]
  ∧ length (index_map (after (Register (Examples.spike 0 0) 0)
                             Examples.narrow_port)) = 3%nat.
Proof.
  destruct (index_map_frozen_once_published Examples.process_A
              Examples.narrow_port
              [Register (Examples.spike 0 0) 5; Publish; Drain]
              (Examples.spike 0 0) 0) as (H1 & H2 & _).
  - reflexivity.
  - reflexivity.
  - split; [by rewrite H1 | by rewrite H2].
Defined.

(** ** The port: the event buffer *)

(** C7. On a port that is not published [push] throws UnconfiguredPort and
    changes nothing; on a published port it returns, and the next [drain],
    whatever pushes come in between, returns the event among the buffered
    ones. *)
Theorem push_requires_publish (e : SpikeEvent) (later : list SpikeEvent)
    (p q : Port) :
  published p = false →
  published q = true →
  push e p = (Throws UnconfiguredPort, p)
  ∧ (push e q).1 = Returns ()
  ∧ (drain (run (Push <$> later) (push e q).2)).1
    = Returns (buffer q ++ e :: later)
  ∧ ∃ drained,
      (drain (run (Push <$> later) (push e q).2)).1 = Returns drained
      ∧ e ∈ drained.
Proof.
  intros Hp Hq. split; [by apply push_unpublished|].
  rewrite (push_published _ _ Hq). cbn [fst snd]. split; [done|].
  rewrite run_pushes by done. rewrite drain_eq. cbn [fst snd buffer].
  rewrite <- app_assoc. simpl. split; [done|].
  eexists. split; [done|]. apply elem_of_app. right. apply list_elem_of_here.
Qed.

Lemma push_requires_publish_witness :
  push (Examples.spike 0 10) (configured "meop" "spikes_out" 4)
  = (Throws UnconfiguredPort, configured "meop" "spikes_out" 4)
  ∧ (drain (run (Push <$> [Examples.spike 1 11])
                (push (Examples.spike 1 10) Examples.process_A).2)).1
    = Returns [Examples.spike 0 10; Examples.spike 1 10; Examples.spike 1 11].
Proof.
  split.
  - apply (push_requires_publish (Examples.spike 0 10) []
             (configured "meop" "spikes_out" 4) Examples.process_A);
      reflexivity.
  - apply (push_requires_publish (Examples.spike 1 10) [Examples.spike 1 11]
             (configured "meop" "spikes_out" 4) Examples.process_A);
      reflexivity.
Defined.

(** C8. The pushes made on a published port between two drains are what
    the second drain returns, in push order, and the drain leaves the
    buffer empty: a drain right after returns nothing, and the drain after
    a further round of pushes returns that round only. *)
Theorem drain_complete_exclusive (p0 : Port) (es1 es2 : list SpikeEvent) :
  published p0 = true →
  (drain (run (Push <$> es1) (drain p0).2)).1 = Returns es1
  ∧ buffer (drain (run (Push <$> es1) (drain p0).2)).2 = []
  ∧ (drain (drain (run (Push <$> es1) (drain p0).2)).2).1 = Returns []
  ∧ (drain (run (Push <$> es2)
                (drain (run (Push <$> es1) (drain p0).2)).2)).1
    = Returns es2
  ∧ buffer (drain (run (Push <$> es2)
                       (drain (run (Push <$> es1) (drain p0).2)).2)).2 = [].
Proof.
  intros Hp. rewrite (drain_eq p0). cbn [fst snd].
  rewrite (run_pushes es1) by done. cbn [buffer proxy app].
  rewrite !drain_eq. cbn [fst snd buffer proxy].
  rewrite (run_pushes es2) by done. done.
Qed.

Lemma drain_complete_exclusive_witness :
  (drain (run (Push <$> [Examples.spike 1 11; Examples.spike 0 12])
              (drain Examples.process_A).2)).1
  = Returns [Examples.spike 1 11; Examples.spike 0 12].
Proof.
  apply (drain_complete_exclusive Examples.process_A
           [Examples.spike 1 11; Examples.spike 0 12] []).
  reflexivity.
Defined.

(** ** The port: what the boundary observes *)













(** * Further properties of the two headers *)

(** ** Conversions to [int], continued *)

Lemma wrap_signed_in_range bits z :
  0 < bits → Cxx.in_range bits (Cxx.wrap_signed bits z).
Proof.
  unfold Cxx.in_range, Cxx.wrap_signed. intros Hb.
  assert (H2 : 2 ^ bits = 2 * 2 ^ (bits - 1)).
  { rewrite <- Z.pow_succ_r by lia. f_equal. lia. }
  assert (0 < 2 ^ (bits - 1)) by (apply Z.pow_pos_nonneg; lia).
  pose proof (Z.mod_pos_bound (z + 2 ^ (bits - 1)) (2 ^ bits)). lia.
Qed.

Lemma static_cast_int_is_int z : Cxx.is_int (Cxx.static_cast_int z).
Proof. apply wrap_signed_in_range. reflexivity. Qed.

Lemma static_cast_int_eq_iff a b :
  Cxx.static_cast_int a = Cxx.static_cast_int b
  ↔ (a - b) `mod` 2 ^ Cxx.int_bits = 0.
Proof.
  unfold Cxx.static_cast_int, Cxx.wrap_signed.
  set (m := 2 ^ Cxx.int_bits). set (h := 2 ^ (Cxx.int_bits - 1)).
  assert (Hcong : (a + h) `mod` m = (b + h) `mod` m ↔ (a - b) `mod` m = 0).
  { rewrite Z.cong_iff_0. by replace (a + h - (b + h)) with (a - b) by lia. }
  rewrite <- Hcong. lia.
Qed.

(** ** [connect_sender] and [update] in sequence *)

Lemma invoke_unpublished c n :
  published_ (S_ n) = false →
  ProxyCalls.invoke c n
  = (ProxyCalls.returned c,
     index_map_append
       (Cxx.static_cast_int <$> ProxyCalls.receptor_types [c]) n).
Proof.
  intros Hp. destruct c as [e r|origin from to]; cbn [ProxyCalls.invoke].
  - unfold mbind, method_bind, bind.
    by rewrite (connect_sender_unpublished _ _ _ Hp).
  - simpl. by rewrite index_map_append_nil.
Qed.

Lemma invoke_published c n :
  published_ (S_ n) = true →
  ProxyCalls.invoke c n = (ProxyCalls.rejected n c, n).
Proof.
  intros Hp. destruct c as [e r|origin from to]; cbn [ProxyCalls.invoke].
  - unfold mbind, method_bind, bind.
    by rewrite (connect_sender_published _ _ _ Hp).
  - reflexivity.
Qed.

Lemma receptor_types_cons c cs :
  ProxyCalls.receptor_types (c :: cs)
  = ProxyCalls.receptor_types [c] ++ ProxyCalls.receptor_types cs.
Proof. by destruct c. Qed.

Lemma trace_unpublished cs n :
  published_ (S_ n) = false →
  ProxyCalls.trace cs n
  = (ProxyCalls.returned <$> cs,
     index_map_append
       (Cxx.static_cast_int <$> ProxyCalls.receptor_types cs) n).
Proof.
  revert n. induction cs as [|c cs IH]; intros n Hp.
  - simpl. by rewrite index_map_append_nil.
  - cbn [ProxyCalls.trace]. rewrite (invoke_unpublished _ _ Hp).
    rewrite IH by done. rewrite index_map_append_append, <- fmap_app.
    by rewrite <- receptor_types_cons.
Qed.

Lemma trace_published cs n :
  published_ (S_ n) = true →
  ProxyCalls.trace cs n = (ProxyCalls.rejected n <$> cs, n).
Proof.
  intros Hp. induction cs as [|c cs IH]; [done|].
  cbn [ProxyCalls.trace]. by rewrite (invoke_published _ _ Hp), IH.
Qed.

(** X1. The local index of a connection is the number of connections made
    before it: after a run of [connect_sender] calls on an unpublished
    proxy, the channel of the [k]-th call, converted to [int], is found at
    position (connections there were) + [k] of the index map, no position
    beyond the last call is filled, and the earlier positions hold what
    they held. *)
Theorem index_map_position (calls : list (SpikeEvent * port))
    (n : music_event_out_proxy) (k : nat) :
  published_ (S_ n) = false →
  index_map_ (V_ (connect_senders calls n).2)
    !! (length (index_map_ (V_ n)) + k)%nat
  = Cxx.static_cast_int <$> (calls.*2 !! k)
  ∧ (∀ i, (i < length (index_map_ (V_ n)))%nat →
          index_map_ (V_ (connect_senders calls n).2) !! i
          = index_map_ (V_ n) !! i)
  ∧ length (index_map_ (V_ (connect_senders calls n).2))
    = (length (index_map_ (V_ n)) + length calls)%nat.
Proof.
  intros Hp. rewrite (connect_senders_unpublished _ _ Hp). simpl.
  split; [|split].
  - rewrite lookup_app_r by lia.
    replace (length (index_map_ (V_ n)) + k - length (index_map_ (V_ n)))%nat
      with k by lia.
    by rewrite list_lookup_fmap.
  - intros i Hi. by rewrite lookup_app_l.
  - by rewrite length_app, !length_fmap.
Qed.

Lemma index_map_position_witness :
  index_map_ (V_ (connect_senders
                    [(Examples.spike 0 0, 7); (Examples.spike 0 0, 4)]
                    (proxy Examples.narrow_port)).2) !! 3%nat
  = Some 4.
Proof.
  apply (index_map_position
           [(Examples.spike 0 0, 7); (Examples.spike 0 0, 4)]
           (proxy Examples.narrow_port) 1).
  reflexivity.
Defined.

(** X2. On an unpublished proxy, [connect_sender] and [update] calls in any
    interleaving all return: each [connect_sender] its receptor type, each
    [update] nothing. At the end the index map has grown by the receptor
    types of the [connect_sender] calls, converted to [int], in call order,
    and the rest of the object is as it was; the proxy is still
    unpublished. *)
Theorem trace_before_publish (cs : list ProxyCalls.member_call)
    (n : music_event_out_proxy) :
  published_ (S_ n) = false →
  (ProxyCalls.trace cs n).1 = ProxyCalls.returned <$> cs
  ∧ (ProxyCalls.trace cs n).2
    = index_map_append
        (Cxx.static_cast_int <$> ProxyCalls.receptor_types cs) n
  ∧ index_map_ (V_ (ProxyCalls.trace cs n).2)
    = index_map_ (V_ n)
      ++ (Cxx.static_cast_int <$> ProxyCalls.receptor_types cs)
  ∧ published_ (S_ (ProxyCalls.trace cs n).2) = false.
Proof.
  intros Hp. by rewrite (trace_unpublished _ _ Hp).
Qed.

Lemma trace_before_publish_witness :
  index_map_ (V_ (ProxyCalls.trace
                    [ProxyCalls.ConnectSender (Examples.spike 0 0) 3;
                     ProxyCalls.UpdateStep 0 0 10;
                     ProxyCalls.ConnectSender (Examples.spike 0 0) 1]
                    Examples.fresh_proxy).2)
  = [3; 1].
Proof.
  destruct (trace_before_publish
              [ProxyCalls.ConnectSender (Examples.spike 0 0) 3;
               ProxyCalls.UpdateStep 0 0 10;
               ProxyCalls.ConnectSender (Examples.spike 0 0) 1]
              Examples.fresh_proxy) as (_ & _ & H & _).
  - reflexivity.
  - by rewrite H.
Defined.

(** X3. A published proxy is a fixed point of the calls its header defines:
    whatever sequence of [connect_sender] and [update] calls it receives,
    every [connect_sender] throws [MUSICPortAlreadyPublished] with the
    node's name and the port name, every [update] returns, and the object
    at the end is the object at the start. *)
Theorem trace_after_publish (cs : list ProxyCalls.member_call)
    (n : music_event_out_proxy) :
  published_ (S_ n) = true →
  (ProxyCalls.trace cs n).1 = ProxyCalls.rejected n <$> cs
  ∧ (ProxyCalls.trace cs n).2 = n.
Proof.
  intros Hp. by rewrite (trace_published _ _ Hp).
Qed.

Lemma trace_after_publish_witness :
  (ProxyCalls.trace
     [ProxyCalls.ConnectSender (Examples.spike 0 0) 3;
      ProxyCalls.UpdateStep 0 0 10]
     Examples.published_proxy).1
  = [Throws (MUSICPortAlreadyPublished "meop" "spikes_out"); Returns None].
Proof.
  destruct (trace_after_publish
              [ProxyCalls.ConnectSender (Examples.spike 0 0) 3;
               ProxyCalls.UpdateStep 0 0 10]
              Examples.published_proxy) as [H _].
  - reflexivity.
  - by rewrite H.
Defined.

(** X4. The index map is append-only and the calls touch nothing else: for
    every proxy, published or not, and every sequence of [connect_sender]
    and [update] calls, the index map at the start is a prefix of the index
    map at the end, and the node name, the parameters, the state (published
    flag and width) and the two pointers are unchanged; there is one
    outcome per call. *)
Theorem trace_append_only (cs : list ProxyCalls.member_call)
    (n : music_event_out_proxy) :
  index_map_ (V_ n) `prefix_of` index_map_ (V_ (ProxyCalls.trace cs n).2)
  ∧ get_name (ProxyCalls.trace cs n).2 = get_name n
  ∧ P_ (ProxyCalls.trace cs n).2 = P_ n
  ∧ S_ (ProxyCalls.trace cs n).2 = S_ n
  ∧ MP_ (V_ (ProxyCalls.trace cs n).2) = MP_ (V_ n)
  ∧ music_perm_ind_ (V_ (ProxyCalls.trace cs n).2) = music_perm_ind_ (V_ n)
  ∧ length (ProxyCalls.trace cs n).1 = length cs.
Proof.
  destruct (published_ (S_ n)) eqn:Hp.
  - rewrite (trace_published _ _ Hp). simpl. by rewrite length_fmap.
  - rewrite (trace_unpublished _ _ Hp). simpl. rewrite length_fmap.
    repeat split. by apply prefix_app_r.
Qed.

(** X5. Every channel [connect_sender] stores is an [int]: if the index map
    holds only values in the range of [int], it still does after any
    sequence of [connect_sender] and [update] calls, whatever receptor
    types the callers pass. *)
Theorem index_map_stays_int (cs : list ProxyCalls.member_call)
    (n : music_event_out_proxy) :
  Forall Cxx.is_int (index_map_ (V_ n)) →
  Forall Cxx.is_int (index_map_ (V_ (ProxyCalls.trace cs n).2)).
Proof.
  intros Hint. destruct (published_ (S_ n)) eqn:Hp.
  - by rewrite (trace_published _ _ Hp).
  - rewrite (trace_unpublished _ _ Hp). simpl.
    apply Forall_app. split; [done|].
    apply Forall_fmap, Forall_forall. intros z _.
    apply static_cast_int_is_int.
Qed.

Lemma index_map_stays_int_witness :
  Forall Cxx.is_int
    (index_map_ (V_ (ProxyCalls.trace
                       [ProxyCalls.ConnectSender (Examples.spike 0 0)
                                                 Examples.wide_channel]
                       Examples.fresh_proxy).2)).
Proof.
  apply index_map_stays_int. constructor.
Defined.

(** X6. Two receptor types are told apart by the index map exactly when
    they differ modulo 2^32: on an unpublished proxy, [connect_sender]
    leaves the same object for [r] and [r'] if and only if [r - r'] is a
    multiple of 2^32, although it returns [r] in one case and [r'] in the
    other. *)
Theorem connect_sender_same_channel (e e' : SpikeEvent) (r r' : port)
    (n : music_event_out_proxy) :
  published_ (S_ n) = false →
  ((connect_sender e r n).2 = (connect_sender e' r' n).2
   ↔ (r - r') `mod` 2 ^ Cxx.int_bits = 0)
  ∧ (connect_sender e r n).1 = Returns r
  ∧ (connect_sender e' r' n).1 = Returns r'.
Proof.
  intros Hp. rewrite !(connect_sender_unpublished _ _ _ Hp). simpl.
  split; [|done]. rewrite <- static_cast_int_eq_iff.
  unfold index_map_push_back, index_map_append. split.
  - intros [= H]. by apply app_inv_head in H as [= ->].
  - by intros ->.
Qed.

Lemma connect_sender_same_channel_witness :
  (connect_sender (Examples.spike 0 0) Examples.wide_channel
                  Examples.fresh_proxy).2
  = (connect_sender (Examples.spike 1 5) 2 Examples.fresh_proxy).2.
Proof.
  apply (connect_sender_same_channel (Examples.spike 0 0) (Examples.spike 1 5)
           Examples.wide_channel 2 Examples.fresh_proxy).
  - reflexivity.
  - reflexivity.
Defined.

(** ** The mock node: spike time *)

Lemma node_run_snoc cs c node :
  NodeLifetime.node_run (cs ++ [c]) node
  = (NodeLifetime.node_invoke c (NodeLifetime.node_run cs node)).2.
Proof. unfold NodeLifetime.node_run. by rewrite foldl_app. Qed.

(** X7. The last [set_spiketime_ms] wins and nothing else counts: after any
    sequence of [set_spiketime_ms], [clear_history] and [set_spiketime]
    calls, [get_spiketime_ms] returns the argument of the last
    [set_spiketime_ms] call, or what it returned before when there was
    none; [clear_history] does not reset it. The [Node] part, with its
    network pointer, is untouched. *)
Theorem spiketime_last_set (cs : list NodeLifetime.node_call)
    (node : ArchivingNode.Archiving_Node) :
  ArchivingNode.get_spiketime_ms (NodeLifetime.node_run cs node)
  = default (ArchivingNode.get_spiketime_ms node) (NodeLifetime.last_set cs)
  ∧ ArchivingNode.base (NodeLifetime.node_run cs node)
    = ArchivingNode.base node.
Proof.
  induction cs as [|c cs [IHt IHb]] using rev_ind; [done|].
  rewrite node_run_snoc. unfold NodeLifetime.last_set.
  rewrite omap_app.
  destruct c as [st| |t_sp]; simpl.
  - split; [|exact IHb]. by rewrite last_snoc.
  - rewrite app_nil_r. split; [exact IHt|exact IHb].
  - rewrite app_nil_r. split; [exact IHt|].
    rewrite <- IHb. by destruct (ArchivingNode.base _).
Qed.

(** ** The mock node: construction, copies and destruction *)

Lemma live_spec h a :
  NodeLifetime.live h a = true
  ↔ (a < length (NodeLifetime.objects h))%nat ∧ a ∉ NodeLifetime.deleted h.
Proof.
  unfold NodeLifetime.live.
  by rewrite andb_true_iff, !bool_decide_eq_true.
Qed.

Lemma delete_live h a :
  NodeLifetime.live h a = true →
  NodeLifetime.delete a h
  = Some {| NodeLifetime.objects := NodeLifetime.objects h;
            NodeLifetime.deleted := a :: NodeLifetime.deleted h |}.
Proof. intros Hl. unfold NodeLifetime.delete. by rewrite Hl. Qed.

Lemma delete_Some h a h' :
  NodeLifetime.delete a h = Some h' →
  NodeLifetime.live h a = true
  ∧ h' = {| NodeLifetime.objects := NodeLifetime.objects h;
            NodeLifetime.deleted := a :: NodeLifetime.deleted h |}.
Proof.
  unfold NodeLifetime.delete. destruct (NodeLifetime.live h a); [|done].
  by intros [= <-].
Qed.

Lemma live_after_delete h a x :
  NodeLifetime.live
    {| NodeLifetime.objects := NodeLifetime.objects h;
       NodeLifetime.deleted := a :: NodeLifetime.deleted h |} x
  = if decide (x = a) then false else NodeLifetime.live h x.
Proof.
  unfold NodeLifetime.live. simpl. destruct (decide (x = a)) as [->|Hne].
  - rewrite (bool_decide_eq_false_2 (a ∉ a :: NodeLifetime.deleted h)).
    + apply andb_false_r.
    + intros H. apply H, list_elem_of_here.
  - f_equal. apply bool_decide_ext. rewrite not_elem_of_cons. tauto.
Qed.

Lemma default_on_heap h :
  NodeLifetime.on_objects ArchivingNode.Archiving_Node_default h
  = (Returns {| ArchivingNode.base :=
                  {| ArchivingNode.net_ := length (NodeLifetime.objects h) |};
                ArchivingNode.last_spike_ := (-1)%float |},
     {| NodeLifetime.objects :=
          NodeLifetime.objects h ++ [{| ArchivingNode.seed := 1234567890 |}];
        NodeLifetime.deleted := NodeLifetime.deleted h |}).
Proof. reflexivity. Qed.

Lemma fresh_not_deleted h :
  NodeLifetime.heap_wf h →
  length (NodeLifetime.objects h) ∉ NodeLifetime.deleted h.
Proof.
  intros Hwf Hin. apply (proj1 (Forall_forall _ _) Hwf) in Hin. lia.
Qed.

(** X10. A node and its copy cannot both be destroyed. After the default
    constructor, the destructor of the node deletes its [Network] and is
    defined; the destructor of a copy of the node, or of the node a second
    time, then deletes the same [Network] again, which is undefined. *)
Theorem copy_double_delete (h h1 : NodeLifetime.heap)
    (node : ArchivingNode.Archiving_Node) :
  NodeLifetime.heap_wf h →
  NodeLifetime.on_objects ArchivingNode.Archiving_Node_default h
    = (Returns node, h1) →
  ∃ h2,
    NodeLifetime.Archiving_Node_destroy node h1 = Some h2
    ∧ NodeLifetime.heap_wf h2
    ∧ NodeLifetime.live h2 (NodeLifetime.network (ArchivingNode.base node))
      = false
    ∧ NodeLifetime.Archiving_Node_destroy
        (ArchivingNode.Archiving_Node_copy node) h2 = None
    ∧ NodeLifetime.Archiving_Node_destroy node h2 = None.
Proof.
  intros Hwf. rewrite default_on_heap. intros [= <- <-].
  pose proof (fresh_not_deleted _ Hwf) as Hfresh.
  unfold NodeLifetime.Archiving_Node_destroy, NodeLifetime.Node_destroy,
    NodeLifetime.network. simpl.
  set (a := length (NodeLifetime.objects h)) in *.
  set (h1 := {| NodeLifetime.objects := _ ++ _ |}).
  assert (Hlive : NodeLifetime.live h1 a = true).
  { apply live_spec. subst h1 a. simpl. rewrite length_app. simpl.
    split; [lia|done]. }
  eexists. split; [by apply delete_live|].
  assert (Hdead : NodeLifetime.live
                    {| NodeLifetime.objects := NodeLifetime.objects h1;
                       NodeLifetime.deleted := a :: NodeLifetime.deleted h1 |}
                    a = false).
  { rewrite live_after_delete. by rewrite decide_True. }
  split; [|split; [done|]].
  - unfold NodeLifetime.heap_wf. subst h1. simpl. rewrite length_app. simpl.
    constructor; [lia|]. eapply Forall_impl; [exact Hwf|]. simpl. lia.
  - unfold NodeLifetime.delete. by rewrite Hdead.
Qed.

Lemma copy_double_delete_witness :
  ∃ h2,
    NodeLifetime.Archiving_Node_destroy
      {| ArchivingNode.base := {| ArchivingNode.net_ := 0 |};
         ArchivingNode.last_spike_ := (-1)%float |}
      {| NodeLifetime.objects := [{| ArchivingNode.seed := 1234567890 |}];
         NodeLifetime.deleted := [] |} = Some h2
    ∧ NodeLifetime.Archiving_Node_destroy
        (ArchivingNode.Archiving_Node_copy
           {| ArchivingNode.base := {| ArchivingNode.net_ := 0 |};
              ArchivingNode.last_spike_ := (-1)%float |}) h2 = None.
Proof.
  destruct (copy_double_delete
              {| NodeLifetime.objects := []; NodeLifetime.deleted := [] |}
              {| NodeLifetime.objects := [{| ArchivingNode.seed := 1234567890 |}];
                 NodeLifetime.deleted := [] |}
              {| ArchivingNode.base := {| ArchivingNode.net_ := 0 |};
                 ArchivingNode.last_spike_ := (-1)%float |})
    as (h2 & H1 & _ & _ & H2 & _).
  - constructor.
  - reflexivity.
  - exists h2. split; [exact H1 | exact H2].
Defined.

(** X11. The destructor deletes the node's own [Network] and no other: when
    it is defined, the network of the node is no longer live and every
    other address is live exactly when it was. So two default-constructed
    nodes can be destroyed, in either order. *)
Theorem destroy_own_network (h h1 h2 : NodeLifetime.heap)
    (a b : ArchivingNode.Archiving_Node) :
  NodeLifetime.heap_wf h →
  NodeLifetime.on_objects ArchivingNode.Archiving_Node_default h
    = (Returns a, h1) →
  NodeLifetime.on_objects ArchivingNode.Archiving_Node_default h1
    = (Returns b, h2) →
  (∃ h3 h4,
     NodeLifetime.Archiving_Node_destroy a h2 = Some h3
     ∧ NodeLifetime.Archiving_Node_destroy b h3 = Some h4
     ∧ ∀ x, NodeLifetime.live h3 x
            = if decide (x = NodeLifetime.network (ArchivingNode.base a))
              then false else NodeLifetime.live h2 x)
  ∧ (∃ h3 h4,
       NodeLifetime.Archiving_Node_destroy b h2 = Some h3
       ∧ NodeLifetime.Archiving_Node_destroy a h3 = Some h4).
Proof.
  intros Hwf. rewrite !default_on_heap. intros [= <- <-]. simpl.
  intros [= <- <-].
  pose proof (fresh_not_deleted _ Hwf) as Hfresh.
  unfold NodeLifetime.Archiving_Node_destroy, NodeLifetime.Node_destroy,
    NodeLifetime.network. simpl.
  set (n := length (NodeLifetime.objects h)) in *.
  set (h2 := {| NodeLifetime.objects := (_ ++ _) ++ _ |}).
  assert (Hlen : length (NodeLifetime.objects h2) = S (S n)).
  { subst h2 n. simpl. rewrite !length_app. simpl. lia. }
  assert (Hn1 : length (NodeLifetime.objects h ++
                        [{| ArchivingNode.seed := 1234567890 |}]) = S n).
  { rewrite length_app. simpl. lia. }
  rewrite Hn1.
  assert (Hsn : S n ∉ NodeLifetime.deleted h).
  { intros Hin. apply (proj1 (Forall_forall _ _) Hwf) in Hin. lia. }
  assert (Ha : NodeLifetime.live h2 n = true).
  { apply live_spec. rewrite Hlen. split; [lia|done]. }
  assert (Hb : NodeLifetime.live h2 (S n) = true).
  { apply live_spec. rewrite Hlen. split; [lia|done]. }
  split.
  - eexists _, _. split; [by apply delete_live|]. split.
    + apply delete_live. rewrite live_after_delete.
      rewrite decide_False by lia. exact Hb.
    + intros x. apply live_after_delete.
  - eexists _, _. split; [by apply delete_live|].
    apply delete_live. rewrite live_after_delete.
    rewrite decide_False by lia. exact Ha.
Qed.

Lemma destroy_own_network_witness :
  ∃ h3 h4,
    NodeLifetime.Archiving_Node_destroy
      {| ArchivingNode.base := {| ArchivingNode.net_ := 1 |};
         ArchivingNode.last_spike_ := (-1)%float |}
      {| NodeLifetime.objects := [{| ArchivingNode.seed := 1234567890 |};
                                  {| ArchivingNode.seed := 1234567890 |}];
         NodeLifetime.deleted := [] |} = Some h3
    ∧ NodeLifetime.Archiving_Node_destroy
        {| ArchivingNode.base := {| ArchivingNode.net_ := 0 |};
           ArchivingNode.last_spike_ := (-1)%float |} h3 = Some h4.
Proof.
  destruct (destroy_own_network
              {| NodeLifetime.objects := []; NodeLifetime.deleted := [] |}
              {| NodeLifetime.objects := [{| ArchivingNode.seed := 1234567890 |}];
                 NodeLifetime.deleted := [] |}
              {| NodeLifetime.objects := [{| ArchivingNode.seed := 1234567890 |};
                                          {| ArchivingNode.seed := 1234567890 |}];
                 NodeLifetime.deleted := [] |}
              {| ArchivingNode.base := {| ArchivingNode.net_ := 0 |};
                 ArchivingNode.last_spike_ := (-1)%float |}
              {| ArchivingNode.base := {| ArchivingNode.net_ := 1 |};
                 ArchivingNode.last_spike_ := (-1)%float |})
    as [_ H].
  - constructor.
  - reflexivity.
  - reflexivity.
  - exact H.
Defined.
